(** * The REST role manager (auth/rest_role_manager.cc)

    A shallow embedding of the role directory of [auth::rest_role_manager]:
    the two tables it reads and writes, the requests it sends to the query
    processor together with their consistency level, and every operation of
    the manager written as a function over that store. *)

From stdpp Require Import gmap strings list fin_maps fin_sets.

(** ** Collaborator types *)

(** [db::consistency_level] (db/consistency_level_type.hh). *)
Inductive consistency_level :=
| ANY | ONE | TWO | THREE | QUORUM | ALL
| LOCAL_QUORUM | EACH_QUORUM | SERIAL | LOCAL_SERIAL | LOCAL_ONE.

Global Instance consistency_level_eq_dec : EqDecision consistency_level.
Proof. solve_decision. Defined.

(** The exceptions this file throws or handles. *)
Inductive exception :=
| nonexistant_role (role_name : string)
| logic_error (what : string)
| unavailable_exception.

Global Instance exception_eq_dec : EqDecision exception.
Proof. solve_decision. Defined.

(** [role_set] is an unordered set of role names. *)
Abbreviation role_set := (gset string).

(** [attribute_vals] maps a role name to the value of one attribute. *)
Abbreviation attribute_vals := (gmap string string).

(** [role_config], [role_config_update] and [recursive_role_query]
    (auth/role_manager.hh). The fields of a config live in their own name
    space: the manager has operations of the same names. *)
Module config.
Record role_config := {
  is_superuser : bool;
  can_login : bool
}.
End config.

Abbreviation role_config := config.role_config.

Record role_config_update := {
  upd_is_superuser : option bool;
  upd_can_login : option bool
}.

Inductive recursive_role_query := recursive_yes | recursive_no.

(** ** The store

    The roles table has primary key [role] and three regular columns, each of
    which may be unset; the attributes table maps [(role, name)] to [value]. *)
Record role_cells := {
  is_superuser_cell : option bool;
  can_login_cell : option bool;
  member_of_cell : option role_set
}.

Global Instance role_cells_eq_dec : EqDecision role_cells.
Proof. solve_decision. Defined.

(** A row of a result set over the roles table. *)
Record untyped_result_set_row := {
  role_col : string;
  cells : role_cells
}.

(** The statements of this file, with their bound values. *)
Inductive statement :=
| select_role (role_name : string)
    (* SELECT * FROM roles WHERE role = ? *)
| select_all_roles
    (* SELECT role,member_of from roles *)
| insert_role (role_name : string) (su login : bool)
    (* INSERT INTO roles (role, is_superuser, can_login) VALUES (?, ?, ?) *)
| select_attribute (role_name attribute_name : string)
    (* SELECT name, value FROM role_attributes WHERE role = ? AND name = ? *)
| insert_attribute (role_name attribute_name attribute_value : string)
    (* INSERT INTO role_attributes (role, name, value) VALUES (?, ?, ?) *)
| delete_attribute (role_name attribute_name : string).
    (* DELETE FROM role_attributes WHERE role = ? AND name = ? *)

Inductive metadata_table := roles_table | role_attributes_table.

(** What the manager does to the outside world, in the order it does it: a
    request to the query processor (with the consistency level it passes, if
    it passes one), a call to a startup collaborator or to the lookup of the
    default role's row, or a log line. *)
Inductive event :=
| ev_query (cl : option consistency_level) (q : statement)
| ev_create_table_if_missing (t : metadata_table)
| ev_wait_for_schema_agreement
| ev_default_role_row_lookup
| ev_log_info
| ev_log_warn.

Record state := {
  roles : gmap string role_cells;
  role_attributes : gmap (string * string) string;
  trace : list event
}.

Definition emit (e : event) (st : state) : state :=
  {| roles := roles st;
     role_attributes := role_attributes st;
     trace := trace st ++ [e] |}.

(** ** Futures

    A future that resolves against the store: it either yields a value or
    fails with an exception, and leaves the store in a new state. *)
Inductive outcome (A : Type) :=
| value (a : A)
| thrown (e : exception).
Arguments value {A} a.
Arguments thrown {A} e.

Definition future (A : Type) : Type := state → outcome A * state.

Global Instance future_ret : MRet future := λ A a st, (value a, st).

Global Instance future_bind : MBind future := λ A B k m st,
  match m st with
  | (value a, st') => k a st'
  | (thrown e, st') => (thrown e, st')
  end.

Definition throw {A} (e : exception) : future A := λ st, (thrown e, st).

Definition make_ready_future {A} (a : A) : future A := mret a.

(** [f.handle_exception_type<unavailable_exception>(h)]. *)
Definition handle_unavailable {A} (m : future A) (h : future A) : future A :=
  λ st,
    match m st with
    | (thrown unavailable_exception, st') => h st'
    | r => r
    end.

Definition log_info : future unit := λ st, (value tt, emit ev_log_info st).
Definition log_warn : future unit := λ st, (value tt, emit ev_log_warn st).

(** ** The query processor

    The store answers every request; a request leaves its statement and
    consistency level in the trace. *)
Definition row_of (kv : string * role_cells) : untyped_result_set_row :=
  {| role_col := kv.1; cells := kv.2 |}.

(** The scan selects the columns [role] and [member_of] only. *)
Definition project_member_of (kv : string * role_cells) : untyped_result_set_row :=
  {| role_col := kv.1;
     cells := {| is_superuser_cell := None;
                 can_login_cell := None;
                 member_of_cell := member_of_cell kv.2 |} |}.

Definition execute_select_role (cl : consistency_level) (role_name : string)
  : future (list untyped_result_set_row) :=
  λ st,
    (value (match roles st !! role_name with
            | Some c => [row_of (role_name, c)]
            | None => []
            end),
     emit (ev_query (Some cl) (select_role role_name)) st).

Definition execute_select_all_roles (cl : consistency_level)
  : future (list untyped_result_set_row) :=
  λ st,
    (value (project_member_of <$> map_to_list (roles st)),
     emit (ev_query (Some cl) select_all_roles) st).

(** An INSERT is an upsert: it sets the named columns of the row with that
    key, creating the row when there is none; other columns keep their
    cell. *)
Definition upsert_flags (role_name : string) (su login : bool)
    (t : gmap string role_cells) : gmap string role_cells :=
  <[role_name :=
      {| is_superuser_cell := Some su;
         can_login_cell := Some login;
         member_of_cell := t !! role_name ≫= member_of_cell |}]> t.

Definition execute_insert_role (cl : consistency_level) (role_name : string)
    (su login : bool) : future unit :=
  λ st,
    (value tt,
     {| roles := upsert_flags role_name su login (roles st);
        role_attributes := role_attributes st;
        trace := trace st ++ [ev_query (Some cl) (insert_role role_name su login)] |}).

Definition execute_select_attribute (role_name attribute_name : string)
  : future (list string) :=
  λ st,
    (value (match role_attributes st !! (role_name, attribute_name) with
            | Some v => [v]
            | None => []
            end),
     emit (ev_query None (select_attribute role_name attribute_name)) st).

Definition execute_insert_attribute (role_name attribute_name attribute_value : string)
  : future unit :=
  λ st,
    (value tt,
     {| roles := roles st;
        role_attributes :=
          <[(role_name, attribute_name) := attribute_value]> (role_attributes st);
        trace := trace st ++
          [ev_query None (insert_attribute role_name attribute_name attribute_value)] |}).

Definition execute_delete_attribute (role_name attribute_name : string)
  : future unit :=
  λ st,
    (value tt,
     {| roles := roles st;
        role_attributes := delete (role_name, attribute_name) (role_attributes st);
        trace := trace st ++
          [ev_query None (delete_attribute role_name attribute_name)] |}).

(** Accessors of a result row. *)
Definition row_has_can_login (row : untyped_result_set_row) : bool :=
  bool_decide (is_Some (can_login_cell (cells row))).

Definition row_has_member_of (row : untyped_result_set_row) : bool :=
  bool_decide (is_Some (member_of_cell (cells row))).

(** [boolean_type->deserialize(row.get_blob(..)).is_null()]. *)
Definition deserialized_is_null (c : option bool) : bool :=
  match c with
  | Some _ => false
  | None => true
  end.

(** [row.get_or<bool>(name, def)]. *)
Definition get_or (c : option bool) (def : bool) : bool :=
  match c with
  | Some b => b
  | None => def
  end.

(** [row.get_set<sstring>("member_of")]; callers check [has] first. *)
Definition get_set (row : untyped_result_set_row) : role_set :=
  match member_of_cell (cells row) with
  | Some s => s
  | None => ∅
  end.

(** The names in a row's [member_of] column, none when it is unset. *)
Definition memberships (c : role_cells) : role_set :=
  default ∅ (member_of_cell c).

(** [container.insert(x)] for each [x] of a set, in iteration order. *)
Definition insert_each (members : role_set) (into : role_set) : role_set :=
  set_fold (λ member acc, {[member]} ∪ acc) into members.

(** [attribute_vals::emplace]: an existing key keeps its value. *)
Definition emplace (k v : string) (m : attribute_vals) : attribute_vals :=
  match m !! k with
  | Some _ => m
  | None => <[k := v]> m
  end.

(** Left-to-right monadic fold over a list. *)
Fixpoint fold_future {A B} (f : B → A → future B) (b : B) (l : list A) : future B :=
  match l with
  | [] => mret b
  | x :: l' => b' ← f b x; fold_future f b' l'
  end.

(** ** Sample stores *)

Module Stores.

Local Open Scope string_scope.

Definition cassandra : string := "cassandra".

Definition cells_of (su login : option bool) (groups : option role_set) : role_cells :=
  {| is_superuser_cell := su; can_login_cell := login; member_of_cell := groups |}.

Definition store_of (t : gmap string role_cells)
    (a : gmap (string * string) string) : state :=
  {| roles := t; role_attributes := a; trace := [] |}.

(** An empty cluster. *)
Definition fresh : state := store_of ∅ ∅.

(** A is a member of B, B is a member of C, and C has no row. *)
Definition chain : state :=
  store_of
    {[ "A" := cells_of None (Some true) (Some {[ "B" ]});
       "B" := cells_of None None (Some {[ "C" ]}) ]}
    ∅.

(** Roles A, B and C, with attribute X set on A and C only. *)
Definition with_attributes : state :=
  store_of
    {[ "A" := cells_of None (Some true) None;
       "B" := cells_of None (Some true) None;
       "C" := cells_of None (Some true) None ]}
    {[ ("A", "X") := "1"; ("C", "X") := "3" ]}.

(** One ordinary role. *)
Definition only_alice : state :=
  store_of {[ "alice" := cells_of (Some false) (Some true) None ]} ∅.


(** Both coordinators check for the default role before either inserts. *)
Definition both_check_first : list bool :=
  [false; true; false; true; false; true; false; true].

(** Two configs for seeding roles. *)
Definition admin : role_config :=
  {| config.is_superuser := true; config.can_login := true |}.

Definition locked : role_config :=
  {| config.is_superuser := false; config.can_login := false |}.

End Stores.

(** ** The manager *)

Section rest_role_manager.

(** [meta::DEFAULT_SUPERUSER_NAME] is declared in auth/common.hh; the
    development holds for whatever name it is. *)
Variable DEFAULT_SUPERUSER_NAME : string.

(** [create_metadata_tables_if_missing] passes its two calls as the arguments
    of one [when_all_succeed]; the language leaves the order in which the
    arguments of a call are evaluated to the compiler. [roles_table_first]
    is that choice, and the development holds for either. *)
Variable roles_table_first : bool.

Record record := {
  name : string;
  rec_is_superuser : bool;
  rec_can_login : bool;
  member_of : role_set
}.

Definition consistency_for_role (role_name : string) : consistency_level :=
  if decide (role_name = DEFAULT_SUPERUSER_NAME) then QUORUM else LOCAL_ONE.

Definition has_can_login (row : untyped_result_set_row) : bool :=
  row_has_can_login row && negb (deserialized_is_null (can_login_cell (cells row))).

(** Modelled from the spec: [default_role_row_satisfies] (auth/roles-metadata.cc)
    is not part of this file. It "checks whether a record satisfying 'is the
    default role and has can_login set' already exists": it looks up the row
    of the default role and applies the predicate to it; with no row the
    answer is [false]. The requests it sends for that are its own business
    and appear in the trace as one lookup. *)
Definition default_role_row_satisfies (p : untyped_result_set_row → bool)
  : future bool :=
  λ st,
    (value (match roles st !! DEFAULT_SUPERUSER_NAME with
            | Some c => p (row_of (DEFAULT_SUPERUSER_NAME, c))
            | None => false
            end),
     emit ev_default_role_row_lookup st).

(** Modelled from the spec: [create_metadata_table_if_missing]
    (auth/common.cc) is an idempotent "create if missing" of one table, done
    by the schema collaborator. *)
Definition create_metadata_table_if_missing (t : metadata_table) : future unit :=
  λ st, (value tt, emit (ev_create_table_if_missing t) st).

(** Modelled from the spec: [wait_for_schema_agreement] (auth/common.cc)
    returns once the cluster agrees on the schema. *)
Definition wait_for_schema_agreement : future unit :=
  λ st, (value tt, emit ev_wait_for_schema_agreement st).

Definition create_metadata_tables_if_missing : future unit :=
  if roles_table_first then
    _ ← create_metadata_table_if_missing roles_table;
    create_metadata_table_if_missing role_attributes_table
  else
    _ ← create_metadata_table_if_missing role_attributes_table;
    create_metadata_table_if_missing roles_table.

(** The continuation of the existence check in
    [create_default_role_if_missing]. *)
Definition insert_default_role_unless (exists_ : bool) : future unit :=
  if negb exists_ then
    _ ← execute_insert_role QUORUM DEFAULT_SUPERUSER_NAME true true;
    _ ← log_info;
    make_ready_future tt
  else
    make_ready_future tt.

Definition create_default_role_if_missing : future unit :=
  handle_unavailable
    (exists_ ← default_role_row_satisfies has_can_login;
     insert_default_role_unless exists_)
    (_ ← log_warn; throw unavailable_exception).

(** The body of the [seastar::async] in [start]: the task that waits for
    schema agreement and then ensures the default role. *)
Definition default_role_task : future unit :=
  _ ← wait_for_schema_agreement;
  create_default_role_if_missing.

(** Modelled from the spec: [do_after_system_ready] (auth/common.cc) starts
    the task it is given in the background and returns the future of that
    task; whether and when a failed run is tried again is the scheduler's. *)
Definition do_after_system_ready (func : future unit) : future unit := func.

(** [start]: [once_among_shards] picks the one shard that runs the body. The
    body ensures the tables and then stores the background task in
    [_stopped]; it does not wait for that task. [start] yields the task it
    stored: running it is one run of the background work. *)
Definition start : future (future unit) :=
  _ ← create_metadata_tables_if_missing;
  mret (do_after_system_ready default_role_task).

(** The run in which the background task stored by [start] is taken up at
    once and runs to its end. *)
Definition start_and_complete : future unit :=
  _stopped ← start;
  _stopped.

Definition find_record (role_name : string) : future (option record) :=
  results ← execute_select_role (consistency_for_role role_name) role_name;
  mret (match results with
        | [] => None
        | row :: _ =>
            Some {| name := role_col row;
                    rec_is_superuser := get_or (is_superuser_cell (cells row)) false;
                    rec_can_login := get_or (can_login_cell (cells row)) false;
                    member_of := if row_has_member_of row then get_set row else ∅ |}
        end).

Definition require_record (role_name : string) : future record :=
  mr ← find_record role_name;
  match mr with
  | None => throw (nonexistant_role role_name)
  | Some r => make_ready_future r
  end.

(** [roles] is the caller's set, passed by reference: the function returns
    it as updated. *)
Definition collect_roles (grantee_name : string) (roles : role_set) : future role_set :=
  r ← require_record grantee_name;
  mret (insert_each (member_of r) roles).

Definition query_granted (grantee_name : string) (m : recursive_role_query)
  : future role_set :=
  collect_roles grantee_name {[grantee_name]}.

Definition exists_ (role_name : string) : future bool :=
  make_ready_future true.

Definition is_superuser (role_name : string) : future bool :=
  mr ← find_record role_name;
  mret (match mr with
        | Some r => rec_is_superuser r
        | None => false
        end).

Definition can_login (role_name : string) : future bool :=
  mr ← find_record role_name;
  mret (match mr with
        | Some r => rec_can_login r
        | None => false
        end).

Definition create_or_replace (role_name : string) (c : role_config) : future unit :=
  execute_insert_role (consistency_for_role role_name) role_name
    (config.is_superuser c) (config.can_login c).

Definition create (role_name : string) (c : role_config) : future unit :=
  create_or_replace role_name c.

Definition alter (role_name : string) (u : role_config_update) : future unit :=
  make_ready_future tt.

Definition drop (role_name : string) : future unit :=
  throw (logic_error "Not Implemented").

Definition grant (grantee_name role_name : string) : future unit :=
  throw (logic_error "Not Implemented").

Definition revoke (revokee_name role_name : string) : future unit :=
  throw (logic_error "Not Implemented").

(** The body of the [for_each] over the rows of the scan. *)
Definition add_row (roles : role_set) (row : untyped_result_set_row) : role_set :=
  let roles := {[role_col row]} ∪ roles in
  if row_has_member_of row then insert_each (get_set row) roles else roles.

Definition query_all : future role_set :=
  results ← execute_select_all_roles QUORUM;
  mret (foldl add_row ∅ results).

Definition get_attribute (role_name attribute_name : string) : future (option string) :=
  result_set ← execute_select_attribute role_name attribute_name;
  mret (match result_set with
        | v :: _ => Some v
        | [] => None
        end).

(** [parallel_for_each] starts one [get_attribute] per role; each request is
    answered by the same store, so the requests are taken in iteration
    order. *)
Definition fetch_into (attribute_name : string) (role_to_att_val : attribute_vals)
    (role : string) : future attribute_vals :=
  att_val ← get_attribute role attribute_name;
  mret (match att_val with
        | Some v => emplace role v role_to_att_val
        | None => role_to_att_val
        end).

Definition query_attribute_for_all (attribute_name : string) : future attribute_vals :=
  roles ← query_all;
  fold_future (fetch_into attribute_name) ∅ (elements roles).

Definition set_attribute (role_name attribute_name attribute_value : string)
  : future unit :=
  role_exists ← exists_ role_name;
  if negb role_exists then throw (nonexistant_role role_name)
  else execute_insert_attribute role_name attribute_name attribute_value.

Definition remove_attribute (role_name attribute_name : string) : future unit :=
  role_exists ← exists_ role_name;
  if negb role_exists then throw (nonexistant_role role_name)
  else execute_delete_attribute role_name attribute_name.


(** ** Bootstrap as a sequence of suspension points

    [start] and the background task it stores suspend after each
    collaborator call and after each request to the store. A coordinator is
    the point one instance has reached; its step is the piece of the
    bootstrap between two suspensions. *)
Inductive coordinator :=
| NOT_STARTED
| TABLES_ENSURED
| SCHEMA_AGREED
| ROLE_CHECKED (found : bool)
| DEFAULT_ROLE_ENSURED.

Definition coordinator_step (c : coordinator) : future coordinator :=
  match c with
  | NOT_STARTED => _ ← create_metadata_tables_if_missing; mret TABLES_ENSURED
  | TABLES_ENSURED => _ ← wait_for_schema_agreement; mret SCHEMA_AGREED
  | SCHEMA_AGREED => found ← default_role_row_satisfies has_can_login; mret (ROLE_CHECKED found)
  | ROLE_CHECKED found => _ ← insert_default_role_unless found; mret DEFAULT_ROLE_ENSURED
  | DEFAULT_ROLE_ENSURED => mret DEFAULT_ROLE_ENSURED
  end.

(** The default role's row qualifies when it has [can_login] set. *)
Definition default_role_qualifies (t : gmap string role_cells) : bool :=
  match t !! DEFAULT_SUPERUSER_NAME with
  | Some c => has_can_login (row_of (DEFAULT_SUPERUSER_NAME, c))
  | None => false
  end.

(** The point a coordinator reaches by one step on the roles table [t]. *)
Definition next_point (c : coordinator) (t : gmap string role_cells) : coordinator :=
  match c with
  | NOT_STARTED => TABLES_ENSURED
  | TABLES_ENSURED => SCHEMA_AGREED
  | SCHEMA_AGREED => ROLE_CHECKED (default_role_qualifies t)
  | ROLE_CHECKED _ | DEFAULT_ROLE_ENSURED => DEFAULT_ROLE_ENSURED
  end.

(** Two instances on different processes share nothing but the store. A
    schedule says which of the two takes the next step ([false]: the first,
    [true]: the second); the store serves one request at a time. *)
Fixpoint interleave (schedule : list bool) (p : coordinator * coordinator)
  : future (coordinator * coordinator) :=
  match schedule with
  | [] => mret p
  | who :: schedule' =>
      p' ← (if who : bool
            then c ← coordinator_step p.2; mret (p.1, c)
            else c ← coordinator_step p.1; mret (c, p.2));
      interleave schedule' p'
  end.

(** The roles table once the default role is ensured. *)
Definition ensured (t : gmap string role_cells) : gmap string role_cells :=
  if default_role_qualifies t then t
  else upsert_flags DEFAULT_SUPERUSER_NAME true true t.



(** ** Consistency of a request

    The role records a statement reads or writes, given the roles table it
    runs against. *)
Definition records_touched (t : gmap string role_cells) (q : statement) : role_set :=
  match q with
  | select_role r => {[r]}
  | insert_role r _ _ => {[r]}
  | select_all_roles => dom t
  | select_attribute _ _ | insert_attribute _ _ _ | delete_attribute _ _ => ∅
  end.

(** A request follows the per-record rule when it is issued at quorum if it
    touches the default role's record, and at local-one if it touches any
    other record. *)
Definition follows_record_rule (t : gmap string role_cells) (e : event) : Prop :=
  match e with
  | ev_query cl q =>
      ∀ r, r ∈ records_touched t q →
           cl = Some (if decide (r = DEFAULT_SUPERUSER_NAME) then QUORUM else LOCAL_ONE)
  | _ => True
  end.

(** The events a future adds to the trace. *)
Definition events_of {A} (m : future A) (st : state) : list event :=
  skipn (length (trace st)) (trace (m st).2).

(** An operation follows the per-record rule when each of its requests does,
    on every store. *)
Definition record_rule_holds_for {A} (m : future A) : Prop :=
  ∀ st, Forall (follows_record_rule (roles st)) (events_of m st).


(** ** Views used to state what the operations return *)

(** The record [find_record] builds from the row of [role_name]. *)
Definition record_of (role_name : string) (c : role_cells) : record :=
  {| name := role_name;
     rec_is_superuser := get_or (is_superuser_cell c) false;
     rec_can_login := get_or (can_login_cell c) false;
     member_of := memberships c |}.

(** The set [query_all] builds from the rows of a roles table. *)
Definition listed (t : gmap string role_cells) : role_set :=
  foldl add_row ∅ (project_member_of <$> map_to_list t).

(** The body of [create_default_role_if_missing] with its two calls to the
    store taken as arguments, so that it can be run against a store that
    fails: [lookup] stands for [default_role_row_satisfies(_qp, &has_can_login)]
    and [insert] for the [execute_internal] of the INSERT. *)
Definition create_default_role_if_missing_on
    (lookup : future bool) (insert : future unit) : future unit :=
  handle_unavailable
    (exists_ ← lookup;
     if negb exists_ then
       _ ← insert;
       _ ← log_info;
       make_ready_future tt
     else
       make_ready_future tt)
    (_ ← log_warn; throw unavailable_exception).

(** * Properties *)

Ltac run_future :=
  unfold make_ready_future, throw, log_info, log_warn,
    execute_select_role, execute_select_all_roles, execute_insert_role,
    execute_select_attribute, execute_insert_attribute, execute_delete_attribute,
    create_metadata_table_if_missing, wait_for_schema_agreement, emit;
  unfold mbind, future_bind, mret, future_ret; simpl.

Lemma insert_each_union (members into : role_set) :
  insert_each members into = members ∪ into.
Proof.
  unfold insert_each.
  apply (set_fold_ind_L (λ acc X, acc = X ∪ into)).
  - symmetry. apply union_empty_l_L.
  - intros x X acc Hx ->. apply union_assoc_L.
Qed.

Lemma bind_run {A B} (m : future A) (k : A → future B) (st : state) :
  (m ≫= k) st =
    match m st with
    | (value a, st') => k a st'
    | (thrown e, st') => (thrown e, st')
    end.
Proof. reflexivity. Qed.

Lemma member_of_of_row (r : string) (c : role_cells) :
  (if row_has_member_of (row_of (r, c)) then get_set (row_of (r, c)) else ∅)
  = memberships c.
Proof.
  unfold row_has_member_of, get_set, memberships. simpl.
  destruct (member_of_cell c); reflexivity.
Qed.

Lemma find_record_run (r : string) (st : state) :
  find_record r st =
    (value (match roles st !! r with
            | Some c => Some {| name := r;
                                rec_is_superuser := get_or (is_superuser_cell c) false;
                                rec_can_login := get_or (can_login_cell c) false;
                                member_of := memberships c |}
            | None => None
            end),
     emit (ev_query (Some (consistency_for_role r)) (select_role r)) st).
Proof.
  unfold find_record. run_future.
  destruct (roles st !! r) as [c|]; [|reflexivity].
  rewrite member_of_of_row. reflexivity.
Qed.

Lemma events_of_emit {A} (m : future A) (st : state) (a : outcome A)
    (t : gmap string role_cells) (at_ : gmap (string * string) string)
    (es : list event) :
  m st = (a, {| roles := t; role_attributes := at_; trace := trace st ++ es |}) →
  events_of m st = es.
Proof.
  intros H. unfold events_of. rewrite H. simpl. apply drop_app_length.
Qed.

(** C5: for every role name, also one that was never written to the store,
    [exists] answers [true]; it sends no request and leaves the store as it
    was. *)
Theorem exists_always_true (role_name : string) (st : state) :
  exists_ role_name st = (value true, st).
Proof. reflexivity. Qed.

(** C8: [drop], [grant] and [revoke] fail on every input with the logic error
    "Not Implemented", and the store (both tables and the trace of requests)
    is left exactly as it was. *)
Theorem drop_grant_revoke_not_implemented (a b : string) (st : state) :
  drop a st = (thrown (logic_error "Not Implemented"), st)
  ∧ grant a b st = (thrown (logic_error "Not Implemented"), st)
  ∧ revoke a b st = (thrown (logic_error "Not Implemented"), st).
Proof. repeat split. Qed.

(** C9: for every role name and every update, [alter] succeeds and changes
    nothing: the state after it is the state before it, so every record read
    back afterwards has the same [is_superuser], [can_login] and [member_of]
    as before. *)
Theorem alter_is_noop (role_name : string) (u : role_config_update) (st : state) :
  alter role_name u st = (value tt, st)
  ∧ ∀ r, (find_record r (alter role_name u st).2).1 = (find_record r st).1.
Proof. split; reflexivity. Qed.

(** C10: [create] is [create_or_replace]: on every name, config and store the
    two give the same result and the same store. The call succeeds whether
    or not a record for the name exists; afterwards the record has the two
    flags of the config and the [member_of] cell it had before (none for a
    new record), every other record is as before, and the attribute table is
    untouched. *)
Theorem create_same_as_create_or_replace
    (role_name : string) (c : role_config) (st : state) :
  create role_name c st = create_or_replace role_name c st
  ∧ (create role_name c st).1 = value tt
  ∧ roles (create role_name c st).2 !! role_name
      = Some {| is_superuser_cell := Some (config.is_superuser c);
                can_login_cell := Some (config.can_login c);
                member_of_cell := roles st !! role_name ≫= member_of_cell |}
  ∧ (∀ r, r ≠ role_name → roles (create role_name c st).2 !! r = roles st !! r)
  ∧ role_attributes (create role_name c st).2 = role_attributes st.
Proof.
  unfold create, create_or_replace, execute_insert_role, upsert_flags. simpl.
  repeat split.
  - apply lookup_insert_eq.
  - intros r Hr. by apply lookup_insert_ne.
Qed.

(** C3: for every grantee and every query mode, when the grantee has a record
    [query_granted] returns exactly the grantee's own name together with the
    names in its [member_of]; a name reached only through the [member_of] of
    one of those roles (depth two or more) is not in the result. When the
    grantee has no record the call fails with [nonexistant_role]. *)
Theorem query_granted_direct_only
    (grantee_name : string) (m : recursive_role_query) (st : state) :
  match roles st !! grantee_name with
  | Some c =>
      (query_granted grantee_name m st).1
        = value ({[grantee_name]} ∪ memberships c)
      ∧ ∀ (via x : string) (cv : role_cells) (S : role_set),
          via ∈ memberships c → roles st !! via = Some cv → x ∈ memberships cv →
          x ≠ grantee_name → x ∉ memberships c →
          (query_granted grantee_name m st).1 = value S → x ∉ S
  | None =>
      (query_granted grantee_name m st).1 = thrown (nonexistant_role grantee_name)
  end.
Proof.
  unfold query_granted, collect_roles, require_record.
  rewrite !bind_run, find_record_run.
  destruct (roles st !! grantee_name) as [c|] eqn:Hg; simpl; [|reflexivity].
  rewrite insert_each_union.
  rewrite (union_comm_L (memberships c)).
  split; [reflexivity|].
  intros via x cv S _ _ _ Hx Hnot [= <-].
  rewrite elem_of_union, elem_of_singleton. tauto.
Qed.

Lemma add_row_union (acc : role_set) (row : untyped_result_set_row) :
  add_row acc row = {[role_col row]} ∪ memberships (cells row) ∪ acc.
Proof.
  unfold add_row, row_has_member_of, get_set, memberships.
  destruct (member_of_cell (cells row)) as [ms|]; simpl.
  - rewrite insert_each_union, union_assoc_L. by rewrite (union_comm_L ms).
  - by rewrite union_empty_r_L.
Qed.

Lemma elem_of_foldl_add_row (rows : list untyped_result_set_row) (acc : role_set)
    (x : string) :
  x ∈ foldl add_row acc rows ↔
  x ∈ acc ∨ ∃ row, row ∈ rows ∧ (x = role_col row ∨ x ∈ memberships (cells row)).
Proof.
  revert acc. induction rows as [|row rows IH]; intros acc; simpl.
  - split; [by left|]. intros [H|(row & Hrow & _)]; [done|].
    by apply elem_of_nil in Hrow.
  - rewrite IH, add_row_union, !elem_of_union, elem_of_singleton. split.
    + intros [[[->|H]|H]|(row' & Hin & H)].
      * right. exists row. split; [left|]; auto.
      * right. exists row. split; [left|]; auto.
      * by left.
      * right. exists row'. split; [by right|done].
    + intros [H|(row' & Hin & H)]; [by left; right|].
      apply elem_of_cons in Hin as [->|Hin].
      * left. left. destruct H; auto.
      * right. eauto.
Qed.

Lemma query_all_run (st : state) :
  query_all st =
    (value (foldl add_row ∅ (project_member_of <$> map_to_list (roles st))),
     emit (ev_query (Some QUORUM) select_all_roles) st).
Proof. reflexivity. Qed.

Lemma elem_of_scanned (t : gmap string role_cells) (x : string) :
  x ∈ foldl add_row ∅ (project_member_of <$> map_to_list t) ↔
  is_Some (t !! x) ∨ ∃ r c, t !! r = Some c ∧ x ∈ memberships c.
Proof.
  rewrite elem_of_foldl_add_row. split.
  - intros [H|(row & Hrow & H)]; [by apply not_elem_of_empty in H|].
    apply list_elem_of_fmap in Hrow as ([r c] & -> & Hrc).
    apply elem_of_map_to_list in Hrc. simpl in H.
    destruct H as [->|H]; [left; eauto|right; eauto].
  - intros [[c Hc]|(r & c & Hc & H)]; right.
    + exists (project_member_of (x, c)). split; [|by left].
      apply list_elem_of_fmap. exists (x, c). split; [done|].
      by apply elem_of_map_to_list.
    + exists (project_member_of (r, c)). split; [|by right].
      apply list_elem_of_fmap. exists (r, c). split; [done|].
      by apply elem_of_map_to_list.
Qed.

(** C6: [query_all] sends one scan of the roles table at [QUORUM] and returns
    the set with exactly these names: every name that has a row, and every
    name in the [member_of] of some row, whether or not that name has a row
    of its own. *)
Theorem query_all_rows_and_memberships (st : state) :
  ∃ S : role_set,
    query_all st = (value S, emit (ev_query (Some QUORUM) select_all_roles) st)
    ∧ ∀ x, x ∈ S ↔
        is_Some (roles st !! x)
        ∨ ∃ r c, roles st !! r = Some c ∧ x ∈ memberships c.
Proof.
  eexists. split; [apply query_all_run|]. apply elem_of_scanned.
Qed.

Lemma fetch_into_run (attribute_name : string) (m0 : attribute_vals)
    (role : string) (st : state) :
  fetch_into attribute_name m0 role st =
    (value (match role_attributes st !! (role, attribute_name) with
            | Some v => emplace role v m0
            | None => m0
            end),
     emit (ev_query None (select_attribute role attribute_name)) st).
Proof.
  unfold fetch_into, get_attribute. run_future.
  by destruct (role_attributes st !! (role, attribute_name)).
Qed.

Lemma fold_fetch_into (attribute_name : string) (l : list string)
    (m0 : attribute_vals) (st : state) :
  ∃ m st',
    fold_future (fetch_into attribute_name) m0 l st = (value m, st')
    ∧ roles st' = roles st
    ∧ role_attributes st' = role_attributes st
    ∧ ∀ r, m !! r =
        match m0 !! r with
        | Some v => Some v
        | None => if decide (r ∈ l) then role_attributes st !! (r, attribute_name)
                  else None
        end.
Proof.
  revert m0 st. induction l as [|role l IH]; intros m0 st; simpl.
  - exists m0, st. repeat split. intros r.
    by destruct (m0 !! r).
  - rewrite bind_run, fetch_into_run.
    set (m1 := match role_attributes st !! (role, attribute_name) with
               | Some v => emplace role v m0
               | None => m0
               end).
    destruct (IH m1 (emit (ev_query None (select_attribute role attribute_name)) st))
      as (m & st' & Hrun & Hroles & Hattrs & Hm).
    exists m, st'. repeat split; try done.
    intros r. rewrite Hm. simpl. subst m1. unfold emplace.
    destruct (decide (r = role)) as [->|Hne].
    + destruct (decide (role ∈ role :: l)) as [_|Hn];
        [|exfalso; apply Hn, elem_of_cons; by left].
      destruct (role_attributes st !! (role, attribute_name)) as [v|] eqn:Hv.
      * destruct (m0 !! role) eqn:H0; [by rewrite H0|].
        by rewrite lookup_insert_eq.
      * destruct (m0 !! role); [done|]. by case_decide.
    + assert (Hl : r ∈ role :: l ↔ r ∈ l).
      { rewrite elem_of_cons. tauto. }
      assert (Hsame : match role_attributes st !! (role, attribute_name) with
                      | Some v => match m0 !! role with
                                  | Some _ => m0
                                  | None => <[role:=v]> m0
                                  end
                      | None => m0
                      end !! r = m0 !! r).
      { destruct (role_attributes st !! (role, attribute_name)); [|done].
        destruct (m0 !! role); [done|]. by rewrite lookup_insert_ne. }
      rewrite Hsame. destruct (m0 !! r); [done|].
      repeat case_decide; tauto.
Qed.

(** C7: for every attribute name, [query_attribute_for_all] returns exactly
    this map: a name produced by [query_all] (a row's name or a name that
    only occurs in some [member_of]) is mapped to its stored value of the
    attribute when it has one; a name with no value for the attribute, and
    every name [query_all] does not produce, has no entry. Neither table is
    changed. *)
Theorem query_attribute_for_all_exact (attribute_name : string) (st : state) :
  ∃ (S : role_set) (m : attribute_vals) (st' : state),
    (query_all st).1 = value S
    ∧ query_attribute_for_all attribute_name st = (value m, st')
    ∧ roles st' = roles st
    ∧ role_attributes st' = role_attributes st
    ∧ ∀ r, m !! r =
        if decide (r ∈ S) then role_attributes st !! (r, attribute_name) else None.
Proof.
  pose proof (query_all_run st) as Hall.
  set (S := foldl add_row ∅ (project_member_of <$> map_to_list (roles st))) in Hall.
  destruct (fold_fetch_into attribute_name (elements S) ∅
              (emit (ev_query (Some QUORUM) select_all_roles) st))
    as (m & st' & Hrun & Hroles & Hattrs & Hm).
  exists S, m, st'. split; [by rewrite Hall|].
  split; [unfold query_attribute_for_all; by rewrite bind_run, Hall|].
  repeat split; try done.
  intros r. rewrite Hm, lookup_empty. simpl.
  destruct (decide (r ∈ S)) as [Hin|Hout].
  - rewrite decide_True; [done|]. by apply elem_of_elements.
  - rewrite decide_False; [done|]. by rewrite elem_of_elements.
Qed.

(** ** Bootstrap *)

Lemma default_role_row_satisfies_run (st : state) :
  default_role_row_satisfies has_can_login st =
    (value (default_role_qualifies (roles st)),
     emit ev_default_role_row_lookup st).
Proof.
  reflexivity.
Qed.

Lemma insert_default_role_unless_run (found : bool) (st : state) :
  insert_default_role_unless found st =
    (value tt,
     if found then st
     else {| roles := upsert_flags DEFAULT_SUPERUSER_NAME true true (roles st);
             role_attributes := role_attributes st;
             trace := trace st ++
               [ev_query (Some QUORUM) (insert_role DEFAULT_SUPERUSER_NAME true true);
                ev_log_info] |}).
Proof.
  destruct found; [reflexivity|].
  unfold insert_default_role_unless. run_future. by rewrite <- app_assoc.
Qed.

Lemma create_default_role_if_missing_run (st : state) :
  create_default_role_if_missing st =
    (value tt,
     {| roles := ensured (roles st);
        role_attributes := role_attributes st;
        trace := trace st ++
          ev_default_role_row_lookup
          :: (if default_role_qualifies (roles st) then []
              else [ev_query (Some QUORUM)
                      (insert_role DEFAULT_SUPERUSER_NAME true true);
                    ev_log_info]) |}).
Proof.
  unfold create_default_role_if_missing, handle_unavailable, ensured.
  rewrite bind_run, default_role_row_satisfies_run, insert_default_role_unless_run.
  destruct (default_role_qualifies (roles st)); simpl; [reflexivity|].
  by rewrite <- app_assoc.
Qed.

Lemma start_run (st : state) :
  start st =
    (value default_role_task,
     {| roles := roles st;
        role_attributes := role_attributes st;
        trace := trace st ++
          (if roles_table_first
           then [ev_create_table_if_missing roles_table;
                 ev_create_table_if_missing role_attributes_table]
           else [ev_create_table_if_missing role_attributes_table;
                 ev_create_table_if_missing roles_table]) |}).
Proof.
  unfold start, create_metadata_tables_if_missing, do_after_system_ready.
  destruct roles_table_first; run_future; by rewrite <- app_assoc.
Qed.

Lemma default_role_task_run (st : state) :
  default_role_task st =
    (value tt,
     {| roles := ensured (roles st);
        role_attributes := role_attributes st;
        trace := trace st ++
          [ev_wait_for_schema_agreement; ev_default_role_row_lookup]
          ++ (if default_role_qualifies (roles st) then []
              else [ev_query (Some QUORUM)
                      (insert_role DEFAULT_SUPERUSER_NAME true true);
                    ev_log_info]) |}).
Proof.
  unfold default_role_task, wait_for_schema_agreement.
  rewrite bind_run, create_default_role_if_missing_run. simpl.
  by rewrite <- app_assoc.
Qed.

Lemma start_and_complete_run (st : state) :
  start_and_complete st = default_role_task (start st).2.
Proof. unfold start_and_complete. by rewrite bind_run, start_run. Qed.

(** The check of the bootstrap in terms of the table: the default role
    qualifies exactly when it has a row whose [can_login] cell holds a
    value, whichever value. *)
Lemma default_role_qualifies_cell (t : gmap string role_cells) :
  default_role_qualifies t
  = match t !! DEFAULT_SUPERUSER_NAME ≫= can_login_cell with
    | Some _ => true
    | None => false
    end.
Proof.
  unfold default_role_qualifies, has_can_login, row_has_can_login.
  destruct (t !! DEFAULT_SUPERUSER_NAME) as [c|]; [|reflexivity]. simpl.
  by destruct (can_login_cell c).
Qed.

Lemma ensured_cell (t : gmap string role_cells) :
  ensured t
  = match t !! DEFAULT_SUPERUSER_NAME ≫= can_login_cell with
    | Some _ => t
    | None =>
        <[DEFAULT_SUPERUSER_NAME :=
            {| is_superuser_cell := Some true;
               can_login_cell := Some true;
               member_of_cell := t !! DEFAULT_SUPERUSER_NAME ≫= member_of_cell |}]> t
    end.
Proof.
  unfold ensured. rewrite default_role_qualifies_cell.
  by destruct (t !! DEFAULT_SUPERUSER_NAME ≫= can_login_cell).
Qed.


Lemma ensured_qualifies (t : gmap string role_cells) :
  default_role_qualifies (ensured t) = true.
Proof.
  unfold ensured. destruct (default_role_qualifies t) eqn:Hq; [done|].
  unfold default_role_qualifies, upsert_flags. by rewrite lookup_insert_eq.
Qed.

Lemma ensured_fixed (t : gmap string role_cells) :
  default_role_qualifies t = true → ensured t = t.
Proof. unfold ensured. by intros ->. Qed.

Lemma ensured_twice (t : gmap string role_cells) : ensured (ensured t) = ensured t.
Proof. apply ensured_fixed, ensured_qualifies. Qed.

(** C1: [start] ensures the two tables (in the order the compiler chose for
    the two calls), stores the background task and resolves; the task waits
    for schema agreement and only then looks for a default role record with
    [can_login] set, that is a row of the default role whose [can_login]
    cell holds a value. When there is one it sends no write and the roles
    table stays as it is; otherwise (no row, or a row with [can_login]
    unset) it sends exactly one write, the insert of the default role with
    [is_superuser] and [can_login] both true, at [QUORUM], and logs it. A
    second run of the task, or of the whole bootstrap, on the store a first
    run left sends no write and changes neither table. *)
Theorem bootstrap_inserts_default_role_once (st : state) :
  start st = (value default_role_task, (start st).2)
  ∧ events_of start st =
      (if roles_table_first
       then [ev_create_table_if_missing roles_table;
             ev_create_table_if_missing role_attributes_table]
       else [ev_create_table_if_missing role_attributes_table;
             ev_create_table_if_missing roles_table])
  ∧ roles (start st).2 = roles st
  ∧ role_attributes (start st).2 = role_attributes st
  ∧ (default_role_task st).1 = value tt
  ∧ events_of default_role_task st =
      [ev_wait_for_schema_agreement; ev_default_role_row_lookup]
      ++ match roles st !! DEFAULT_SUPERUSER_NAME ≫= can_login_cell with
         | Some _ => []
         | None =>
             [ev_query (Some QUORUM) (insert_role DEFAULT_SUPERUSER_NAME true true);
              ev_log_info]
         end
  ∧ roles (default_role_task st).2 =
      match roles st !! DEFAULT_SUPERUSER_NAME ≫= can_login_cell with
      | Some _ => roles st
      | None =>
          <[DEFAULT_SUPERUSER_NAME :=
              {| is_superuser_cell := Some true;
                 can_login_cell := Some true;
                 member_of_cell :=
                   roles st !! DEFAULT_SUPERUSER_NAME ≫= member_of_cell |}]>
            (roles st)
      end
  ∧ role_attributes (default_role_task st).2 = role_attributes st
  ∧ events_of start_and_complete st
    = events_of start st ++ events_of default_role_task st
  ∧ events_of default_role_task (default_role_task st).2 =
      [ev_wait_for_schema_agreement; ev_default_role_row_lookup]
  ∧ events_of create_default_role_if_missing (default_role_task st).2 =
      [ev_default_role_row_lookup]
  ∧ events_of start_and_complete (start_and_complete st).2 =
      events_of start st
      ++ [ev_wait_for_schema_agreement; ev_default_role_row_lookup]
  ∧ roles (start_and_complete (start_and_complete st).2).2
    = roles (start_and_complete st).2
  ∧ role_attributes (start_and_complete (start_and_complete st).2).2
    = role_attributes st.
Proof.
  assert (Hstart : ∀ s, events_of start s =
            (if roles_table_first
             then [ev_create_table_if_missing roles_table;
                   ev_create_table_if_missing role_attributes_table]
             else [ev_create_table_if_missing role_attributes_table;
                   ev_create_table_if_missing roles_table])).
  { intros s. eapply events_of_emit, start_run. }
  assert (Htask : ∀ s, events_of default_role_task s =
            [ev_wait_for_schema_agreement; ev_default_role_row_lookup]
            ++ (if default_role_qualifies (roles s) then []
                else [ev_query (Some QUORUM)
                        (insert_role DEFAULT_SUPERUSER_NAME true true);
                      ev_log_info])).
  { intros s. eapply events_of_emit, default_role_task_run. }
  assert (Hboth : ∀ s, events_of start_and_complete s =
            events_of start s ++ events_of default_role_task s).
  { intros s. rewrite Hstart, Htask. unfold events_of.
    rewrite start_and_complete_run, default_role_task_run, start_run. simpl.
    rewrite <- app_assoc. apply drop_app_length. }
  assert (Hq : ∀ s, default_role_qualifies (roles (default_role_task s).2) = true).
  { intros s. rewrite default_role_task_run. apply ensured_qualifies. }
  assert (Hroles : ∀ s, roles (start_and_complete s).2 = ensured (roles s)).
  { intros s. by rewrite start_and_complete_run, default_role_task_run, start_run. }
  split; [by rewrite start_run|].
  split; [apply Hstart|].
  split; [by rewrite start_run|].
  split; [by rewrite start_run|].
  split; [by rewrite default_role_task_run|].
  split.
  { rewrite Htask, default_role_qualifies_cell.
    by destruct (roles st !! DEFAULT_SUPERUSER_NAME ≫= can_login_cell). }
  split; [rewrite default_role_task_run; apply ensured_cell|].
  split; [by rewrite default_role_task_run|].
  split; [apply Hboth|].
  split; [by rewrite Htask, Hq|].
  split.
  { erewrite events_of_emit; [|apply create_default_role_if_missing_run].
    by rewrite Hq. }
  split.
  { rewrite Hboth, Htask, !Hstart. do 2 f_equal.
    rewrite Hroles, ensured_qualifies. reflexivity. }
  split.
  - rewrite !Hroles. apply ensured_twice.
  - by rewrite !start_and_complete_run, !default_role_task_run, !start_run.
Qed.

(** ** Consistency levels *)

Lemma consistency_for_role_rule (r : string) :
  consistency_for_role r
  = if decide (r = DEFAULT_SUPERUSER_NAME) then QUORUM else LOCAL_ONE.
Proof. reflexivity. Qed.

Lemma point_request_follows_rule (t : gmap string role_cells) (r : string)
    (q : statement) :
  records_touched t q = {[r]} →
  follows_record_rule t (ev_query (Some (consistency_for_role r)) q).
Proof.
  intros Hq x. rewrite Hq, elem_of_singleton. by intros ->.
Qed.

Lemma find_record_events (r : string) (st : state) :
  events_of (find_record r) st
  = [ev_query (Some (consistency_for_role r)) (select_role r)].
Proof. eapply events_of_emit. rewrite find_record_run. reflexivity. Qed.

Lemma after_find_record_events {B} (r : string) (k : option record → future B)
    (st : state) :
  (∀ mr st', ∃ b, k mr st' = (b, st')) →
  events_of (find_record r ≫= k) st
  = [ev_query (Some (consistency_for_role r)) (select_role r)].
Proof.
  intros Hk. unfold events_of. rewrite bind_run, find_record_run.
  match goal with |- context [k ?mr ?s] => destruct (Hk mr s) as [b ->] end.
  simpl. apply drop_app_length.
Qed.

(** C2 (as amended): a request that addresses one role record by name (the
    lookup behind [find_record], [query_granted], [is_superuser] and
    [can_login], and the upsert of [create] and [create_or_replace]) is issued
    at [QUORUM] when the name is the default superuser's and at [LOCAL_ONE]
    for every other name, and the bootstrap insert of the default role is
    issued at [QUORUM]. The scan of [query_all] reads every role record,
    whatever its name, at [QUORUM]. *)
Theorem point_requests_follow_record_rule
    (r : string) (c : role_config) (m : recursive_role_query) :
  consistency_for_role r
    = (if decide (r = DEFAULT_SUPERUSER_NAME) then QUORUM else LOCAL_ONE)
  ∧ (∀ st, events_of (find_record r) st
           = [ev_query (Some (consistency_for_role r)) (select_role r)])
  ∧ (∀ st, events_of (create_or_replace r c) st
           = [ev_query (Some (consistency_for_role r))
                (insert_role r (config.is_superuser c) (config.can_login c))])
  ∧ record_rule_holds_for (find_record r)
  ∧ record_rule_holds_for (query_granted r m)
  ∧ record_rule_holds_for (is_superuser r)
  ∧ record_rule_holds_for (can_login r)
  ∧ record_rule_holds_for (create_or_replace r c)
  ∧ record_rule_holds_for (create r c)
  ∧ record_rule_holds_for (insert_default_role_unless false)
  ∧ (∀ st, events_of query_all st = [ev_query (Some QUORUM) select_all_roles]).
Proof.
  assert (Hfind : ∀ st, Forall (follows_record_rule (roles st))
            [ev_query (Some (consistency_for_role r)) (select_role r)]).
  { intros st. repeat constructor. by apply point_request_follows_rule. }
  split; [reflexivity|].
  split; [apply find_record_events|].
  split; [intros st; by eapply events_of_emit|].
  split; [intros st; rewrite find_record_events; apply Hfind|].
  split.
  { intros st. unfold query_granted, collect_roles, require_record.
    unfold events_of. rewrite !bind_run, find_record_run.
    destruct (roles st !! r); simpl; rewrite drop_app_length; apply Hfind. }
  split.
  { intros st. unfold is_superuser.
    rewrite after_find_record_events; [apply Hfind|]. intros; by eexists. }
  split.
  { intros st. unfold can_login.
    rewrite after_find_record_events; [apply Hfind|]. intros; by eexists. }
  assert (Hcreate : record_rule_holds_for (create_or_replace r c)).
  { intros st. erewrite events_of_emit; [|reflexivity].
    repeat constructor. by apply point_request_follows_rule. }
  split; [done|]. split; [done|].
  split.
  { intros st.
    erewrite events_of_emit; [|apply (insert_default_role_unless_run false)].
    repeat constructor. intros x. simpl. rewrite elem_of_singleton. intros ->.
    by rewrite decide_True. }
  intros st. by eapply events_of_emit.
Qed.

(** ** Two coordinators racing *)

Lemma coordinator_step_run (c : coordinator) (st : state) :
  ∃ es,
    coordinator_step c st =
      (value (next_point c (roles st)),
       {| roles := match c with
                   | ROLE_CHECKED false =>
                       upsert_flags DEFAULT_SUPERUSER_NAME true true (roles st)
                   | _ => roles st
                   end;
          role_attributes := role_attributes st;
          trace := trace st ++ es |}).
Proof.
  destruct c as [| | |[|]|]; simpl.
  - exists (if roles_table_first
            then [ev_create_table_if_missing roles_table;
                  ev_create_table_if_missing role_attributes_table]
            else [ev_create_table_if_missing role_attributes_table;
                  ev_create_table_if_missing roles_table]).
    unfold create_metadata_tables_if_missing.
    destruct roles_table_first; run_future; by rewrite <- app_assoc.
  - eexists. by run_future.
  - eexists. rewrite bind_run, default_role_row_satisfies_run. reflexivity.
  - exists []. rewrite bind_run, insert_default_role_unless_run. simpl.
    destruct st; simpl. by rewrite app_nil_r.
  - eexists. rewrite bind_run, insert_default_role_unless_run. reflexivity.
  - exists []. unfold mret, future_ret. destruct st; simpl. by rewrite app_nil_r.
Qed.

(** Running one instance step by step is [start] followed by the task it
    stored. *)
Lemma bootstrap_is_four_steps (st : state) :
  (c1 ← coordinator_step NOT_STARTED;
   c2 ← coordinator_step c1;
   c3 ← coordinator_step c2;
   coordinator_step c3) st
  = (value DEFAULT_ROLE_ENSURED, (start_and_complete st).2).
Proof.
  rewrite start_and_complete_run, default_role_task_run, start_run.
  cbn [snd coordinator_step roles role_attributes trace].
  unfold create_metadata_tables_if_missing, default_role_row_satisfies.
  destruct roles_table_first; run_future;
    rewrite bind_run, insert_default_role_unless_run;
    unfold ensured, default_role_qualifies;
    (destruct (roles st !! DEFAULT_SUPERUSER_NAME) as [c|]; simpl;
     [destruct (has_can_login _)|]; simpl;
     unfold mret, future_ret, emit; simpl; by rewrite <- !app_assoc).
Qed.




(** Every schedule runs without failure, and the schedule that lets the first
    coordinator finish before the second starts brings both to the end. *)
Lemma interleave_never_fails (st : state) (schedule : list bool)
    (p : coordinator * coordinator) :
  ∃ p' st', interleave schedule p st = (value p', st').
Proof.
  revert p st. induction schedule as [|who schedule IH]; intros [c1 c2] st.
  - by eexists _, _.
  - cbn [interleave]. rewrite bind_run. destruct who; simpl; rewrite bind_run.
    + destruct (coordinator_step_run c2 st) as [es ->]. simpl. apply IH.
    + destruct (coordinator_step_run c1 st) as [es ->]. simpl. apply IH.
Qed.

Lemma interleave_cons_run (who : bool) (schedule : list bool)
    (c1 c2 : coordinator) (st : state) :
  ∃ st',
    interleave (who :: schedule) (c1, c2) st
    = interleave schedule
        (if who then (c1, next_point c2 (roles st))
         else (next_point c1 (roles st), c2)) st'.
Proof.
  cbn [interleave]. rewrite bind_run. destruct who; simpl; rewrite bind_run.
  - destruct (coordinator_step_run c2 st) as [es ->]. by eexists.
  - destruct (coordinator_step_run c1 st) as [es ->]. by eexists.
Qed.

Lemma one_after_the_other_finishes (st : state) :
  (interleave [false; false; false; false; true; true; true; true]
     (NOT_STARTED, NOT_STARTED) st).1
  = value (DEFAULT_ROLE_ENSURED, DEFAULT_ROLE_ENSURED).
Proof.
  do 8 (match goal with
        | |- context [interleave (?w :: ?s) (?a, ?b) ?st0] =>
            destruct (interleave_cons_run w s a b st0) as [? ->];
            cbn [next_point]
        end).
  reflexivity.
Qed.

(** * Further properties of the operations *)

(** ** What each operation returns, in terms of the tables *)

Lemma find_record_result (r : string) (st : state) :
  (find_record r st).1 = value (record_of r <$> roles st !! r).
Proof. rewrite find_record_run. simpl. by destruct (roles st !! r). Qed.

Lemma require_record_run (r : string) (st : state) :
  require_record r st =
    (match roles st !! r with
     | Some c => value (record_of r c)
     | None => thrown (nonexistant_role r)
     end,
     emit (ev_query (Some (consistency_for_role r)) (select_role r)) st).
Proof.
  unfold require_record. rewrite bind_run, find_record_run.
  by destruct (roles st !! r).
Qed.

Lemma query_granted_run (g : string) (m : recursive_role_query) (st : state) :
  query_granted g m st =
    (match roles st !! g with
     | Some c => value ({[g]} ∪ memberships c)
     | None => thrown (nonexistant_role g)
     end,
     emit (ev_query (Some (consistency_for_role g)) (select_role g)) st).
Proof.
  unfold query_granted, collect_roles. rewrite bind_run, require_record_run.
  destruct (roles st !! g) as [c|]; [|reflexivity].
  unfold mret, future_ret. simpl.
  by rewrite insert_each_union, (union_comm_L (memberships c)).
Qed.

Lemma is_superuser_run (r : string) (st : state) :
  is_superuser r st =
    (value (match roles st !! r with
            | Some c => get_or (is_superuser_cell c) false
            | None => false
            end),
     emit (ev_query (Some (consistency_for_role r)) (select_role r)) st).
Proof.
  unfold is_superuser. rewrite bind_run, find_record_run.
  by destruct (roles st !! r).
Qed.

Lemma can_login_run (r : string) (st : state) :
  can_login r st =
    (value (match roles st !! r with
            | Some c => get_or (can_login_cell c) false
            | None => false
            end),
     emit (ev_query (Some (consistency_for_role r)) (select_role r)) st).
Proof.
  unfold can_login. rewrite bind_run, find_record_run.
  by destruct (roles st !! r).
Qed.

Lemma query_all_listed (st : state) :
  query_all st =
    (value (listed (roles st)), emit (ev_query (Some QUORUM) select_all_roles) st).
Proof. reflexivity. Qed.

Lemma elem_of_listed (t : gmap string role_cells) (x : string) :
  x ∈ listed t ↔ is_Some (t !! x) ∨ ∃ r c, t !! r = Some c ∧ x ∈ memberships c.
Proof. apply elem_of_scanned. Qed.

Lemma get_attribute_run (r a : string) (st : state) :
  get_attribute r a st =
    (value (role_attributes st !! (r, a)),
     emit (ev_query None (select_attribute r a)) st).
Proof.
  unfold get_attribute. run_future. by destruct (role_attributes st !! (r, a)).
Qed.

Lemma create_or_replace_roles (r : string) (c : role_config) (st : state) :
  roles (create_or_replace r c st).2
  = upsert_flags r (config.is_superuser c) (config.can_login c) (roles st).
Proof. reflexivity. Qed.

Lemma upsert_flags_lookup (r : string) (su login : bool)
    (t : gmap string role_cells) (g : string) :
  upsert_flags r su login t !! g
  = if decide (r = g)
    then Some {| is_superuser_cell := Some su;
                 can_login_cell := Some login;
                 member_of_cell := t !! r ≫= member_of_cell |}
    else t !! g.
Proof. unfold upsert_flags. apply lookup_insert. Qed.

Lemma upsert_flags_memberships (r : string) (su login : bool)
    (t : gmap string role_cells) (g : string) (c' : role_cells) :
  upsert_flags r su login t !! g = Some c' →
  (g = r ∧ memberships c' = from_option memberships ∅ (t !! r))
  ∨ (g ≠ r ∧ t !! g = Some c').
Proof.
  rewrite upsert_flags_lookup. case_decide as Hrg.
  - intros [= <-]. left. split; [done|].
    unfold memberships. simpl. by destruct (t !! r).
  - intros H. right. split; [congruence|done].
Qed.

Lemma listed_upsert_flags (r : string) (su login : bool)
    (t : gmap string role_cells) :
  listed (upsert_flags r su login t) = {[r]} ∪ listed t.
Proof.
  apply set_eq. intros x.
  rewrite elem_of_union, elem_of_singleton, !elem_of_listed. split.
  - intros [[c' Hx]|(g & c' & Hg & Hx)].
    + apply upsert_flags_memberships in Hx as [[-> _]|[_ Hx]]; [by left|].
      right. left. by eexists.
    + apply upsert_flags_memberships in Hg as [[-> Hm]|[_ Hg]].
      * rewrite Hm in Hx. destruct (t !! r) as [c0|] eqn:Hr; simpl in Hx.
        -- right. right. by exists r, c0.
        -- by apply not_elem_of_empty in Hx.
      * right. right. by exists g, c'.
  - intros [->|[[c0 Hx]|(g & c0 & Hg & Hx)]].
    + left. rewrite upsert_flags_lookup, decide_True by done. by eexists.
    + left. rewrite upsert_flags_lookup. case_decide; by eexists.
    + right. destruct (decide (r = g)) as [<-|Hne].
      * eexists r, _. rewrite upsert_flags_lookup, decide_True by done.
        split; [done|]. unfold memberships. simpl. by rewrite Hg.
      * exists g, c0. by rewrite upsert_flags_lookup, decide_False.
Qed.

(** ** Role records: writing and reading back *)

(** X1: a role written by [create_or_replace] can be read back at once: its
    record has the name asked for, the two flags of the config and the
    memberships the row had before (none for a new row); [is_superuser] and
    [can_login] answer the flags of the config, and [require_record] does not
    fail. *)
Theorem create_or_replace_read_back (r : string) (c : role_config) (st : state) :
  (find_record r (create_or_replace r c st).2).1
    = value (Some {| name := r;
                     rec_is_superuser := config.is_superuser c;
                     rec_can_login := config.can_login c;
                     member_of := from_option memberships ∅ (roles st !! r) |})
  ∧ (require_record r (create_or_replace r c st).2).1
    = value {| name := r;
               rec_is_superuser := config.is_superuser c;
               rec_can_login := config.can_login c;
               member_of := from_option memberships ∅ (roles st !! r) |}
  ∧ (is_superuser r (create_or_replace r c st).2).1 = value (config.is_superuser c)
  ∧ (can_login r (create_or_replace r c st).2).1 = value (config.can_login c).
Proof.
  rewrite find_record_result, require_record_run, is_superuser_run, can_login_run.
  rewrite create_or_replace_roles, upsert_flags_lookup, decide_True by done.
  simpl. unfold record_of, memberships. simpl.
  by destruct (roles st !! r).
Qed.

(** X2: [is_superuser] answers true exactly when the role has a row whose
    [is_superuser] column is true, and [can_login] likewise; for a role with
    no row, or with the column unset, the answer is false and not an error. *)
Theorem flag_queries_exact (r : string) (st : state) :
  ((is_superuser r st).1 = value true
     ↔ ∃ c, roles st !! r = Some c ∧ is_superuser_cell c = Some true)
  ∧ ((can_login r st).1 = value true
     ↔ ∃ c, roles st !! r = Some c ∧ can_login_cell c = Some true)
  ∧ ((is_superuser r st).1 = value true ∨ (is_superuser r st).1 = value false)
  ∧ ((can_login r st).1 = value true ∨ (can_login r st).1 = value false).
Proof.
  rewrite is_superuser_run, can_login_run. simpl.
  destruct (roles st !! r) as [c|]; simpl.
  - destruct c as [[[|]|] [[|]|] ms]; simpl;
      repeat split; auto;
      try (intros [= ?]); try (intros (c' & [= <-] & [= ?])); eauto.
  - repeat split; auto; try (intros [= ?]); intros (c' & [= ?] & _).
Qed.

(** X3: [require_record] succeeds exactly for the names that have a row, and
    then returns the record of that very name; for any other name it fails
    with [nonexistant_role] carrying the name asked for. It sends one lookup
    and changes neither table. *)
Theorem require_record_exact (r : string) (st : state) :
  match roles st !! r with
  | Some c =>
      (require_record r st).1 = value (record_of r c)
      ∧ (find_record r st).1 = value (Some (record_of r c))
      ∧ name (record_of r c) = r
  | None =>
      (require_record r st).1 = thrown (nonexistant_role r)
      ∧ (find_record r st).1 = value None
  end
  ∧ roles (require_record r st).2 = roles st
  ∧ role_attributes (require_record r st).2 = role_attributes st
  ∧ events_of (require_record r) st
    = [ev_query (Some (consistency_for_role r)) (select_role r)].
Proof.
  rewrite find_record_result, require_record_run.
  split; [by destruct (roles st !! r)|].
  repeat split. eapply events_of_emit. apply require_record_run.
Qed.

Lemma upsert_flags_last_wins (r : string) (su login su' login' : bool)
    (t : gmap string role_cells) :
  upsert_flags r su' login' (upsert_flags r su login t) = upsert_flags r su' login' t.
Proof.
  unfold upsert_flags. rewrite lookup_insert_eq. simpl. apply insert_insert_eq.
Qed.

(** X4: repeating [create_or_replace] with the same config leaves the tables
    as the first call left them, and of two calls for the same name the
    later one decides the flags: the tables are those the later call alone
    would have given. *)
Theorem create_or_replace_idempotent_last_wins
    (r : string) (c c' : role_config) (st : state) :
  roles (create_or_replace r c (create_or_replace r c st).2).2
    = roles (create_or_replace r c st).2
  ∧ roles (create_or_replace r c' (create_or_replace r c st).2).2
    = roles (create_or_replace r c' st).2
  ∧ role_attributes (create_or_replace r c' (create_or_replace r c st).2).2
    = role_attributes st.
Proof.
  rewrite !create_or_replace_roles. split; [apply upsert_flags_last_wins|].
  split; [apply upsert_flags_last_wins|reflexivity].
Qed.

(** X5: writes for two different roles commute: two [create_or_replace]
    calls, and two [set_attribute] calls, leave the same tables in either
    order. *)
Theorem writes_for_different_roles_commute
    (r1 r2 : string) (c1 c2 : role_config) (a1 a2 v1 v2 : string) (st : state) :
  r1 ≠ r2 →
  roles (create_or_replace r2 c2 (create_or_replace r1 c1 st).2).2
    = roles (create_or_replace r1 c1 (create_or_replace r2 c2 st).2).2
  ∧ role_attributes (set_attribute r2 a2 v2 (set_attribute r1 a1 v1 st).2).2
    = role_attributes (set_attribute r1 a1 v1 (set_attribute r2 a2 v2 st).2).2.
Proof.
  intros Hne. split.
  - rewrite !create_or_replace_roles. unfold upsert_flags.
    rewrite !lookup_insert_ne by done. by apply insert_insert_ne.
  - simpl. apply insert_insert_ne. congruence.
Qed.

(** X6: [create_or_replace] never changes what [query_granted] answers: for
    every grantee that had a row, and for every grantee other than the role
    written, the answer after the call is the answer before it. *)
Theorem create_or_replace_keeps_memberships
    (r g : string) (c : role_config) (m : recursive_role_query) (st : state) :
  is_Some (roles st !! g) ∨ g ≠ r →
  (query_granted g m (create_or_replace r c st).2).1 = (query_granted g m st).1.
Proof.
  intros Hg. rewrite !query_granted_run, create_or_replace_roles. simpl.
  rewrite upsert_flags_lookup.
  destruct (decide (r = g)) as [<-|Hne].
  - destruct Hg as [[c0 Hc0]|Hg]; [|done].
    rewrite Hc0. unfold memberships. reflexivity.
  - reflexivity.
Qed.

(** X7: after [create_or_replace] of a role, [query_all] lists that role in
    addition to exactly the names it listed before. *)
Theorem query_all_after_create_or_replace
    (r : string) (c : role_config) (st : state) :
  ∃ S : role_set,
    (query_all st).1 = value S
    ∧ (query_all (create_or_replace r c st).2).1 = value ({[r]} ∪ S).
Proof.
  exists (listed (roles st)). rewrite !query_all_listed. simpl.
  by rewrite listed_upsert_flags.
Qed.

(** X8: every name [query_granted] returns for a grantee is also listed by
    [query_all] on the same store. *)
Theorem query_granted_within_query_all
    (g : string) (m : recursive_role_query) (st : state) (G S : role_set) :
  (query_granted g m st).1 = value G →
  (query_all st).1 = value S →
  G ⊆ S.
Proof.
  rewrite query_granted_run, query_all_listed. simpl.
  destruct (roles st !! g) as [c|] eqn:Hg; [|done].
  intros [= <-] [= <-] x. rewrite elem_of_union, elem_of_singleton, elem_of_listed.
  intros [->|Hx]; [left; by eexists|right; by exists g, c].
Qed.

(** ** Reads change nothing *)


Lemma query_attribute_for_all_result (a : string) (st : state) :
  ∃ m st',
    query_attribute_for_all a st = (value m, st')
    ∧ roles st' = roles st
    ∧ role_attributes st' = role_attributes st
    ∧ ∀ r, m !! r =
        if decide (r ∈ listed (roles st)) then role_attributes st !! (r, a)
        else None.
Proof.
  destruct (fold_fetch_into a (elements (listed (roles st))) ∅
              (emit (ev_query (Some QUORUM) select_all_roles) st))
    as (m & st' & Hrun & Hroles & Hattrs & Hm).
  exists m, st'.
  split; [unfold query_attribute_for_all; by rewrite bind_run, query_all_listed|].
  repeat split; try done.
  intros r. rewrite Hm, lookup_empty. simpl.
  destruct (decide (r ∈ listed (roles st))) as [Hin|Hout].
  - rewrite decide_True; [done|]. by apply elem_of_elements.
  - rewrite decide_False; [done|]. by rewrite elem_of_elements.
Qed.

(** X9: the operations that only ask (the lookups [find_record],
    [query_granted], [is_superuser], [can_login] and [get_attribute], the
    scan [query_all], [query_attribute_for_all] and [exists]) leave both tables
    exactly as they were. *)
Theorem reads_leave_tables_unchanged
    (r a : string) (m : recursive_role_query) (st : state) :
  Forall (λ st', roles st' = roles st ∧ role_attributes st' = role_attributes st)
    [ (find_record r st).2;
      (query_granted r m st).2;
      (is_superuser r st).2;
      (can_login r st).2;
      (exists_ r st).2;
      (query_all st).2;
      (get_attribute r a st).2;
      (query_attribute_for_all a st).2 ].
Proof.
  rewrite find_record_run, query_granted_run, is_superuser_run, can_login_run,
    get_attribute_run.
  destruct (query_attribute_for_all_result a st) as (x & st' & -> & Hr & Ha & _).
  repeat constructor; done.
Qed.

(** ** Attributes *)

(** X10: an attribute written by [set_attribute] is what [get_attribute]
    returns next, every other (role, attribute) pair reads as before, and the
    call succeeds for every role name, also one with no row in the roles
    table: it never fails with [nonexistant_role]. *)
Theorem set_then_get_attribute (r a v : string) (st : state) :
  (set_attribute r a v st).1 = value tt
  ∧ (get_attribute r a (set_attribute r a v st).2).1 = value (Some v)
  ∧ ∀ r' a', (r', a') ≠ (r, a) →
      (get_attribute r' a' (set_attribute r a v st).2).1
      = (get_attribute r' a' st).1.
Proof.
  split; [reflexivity|]. split.
  - rewrite get_attribute_run. simpl. by rewrite lookup_insert_eq.
  - intros r' a' Hne. rewrite !get_attribute_run. simpl.
    by rewrite lookup_insert_ne.
Qed.

(** X11: [remove_attribute] succeeds for every pair; afterwards
    [get_attribute] finds no value for the pair and every other pair reads as
    before. On a pair that was never set it leaves the attribute table as it
    was. *)
Theorem remove_attribute_exact (r a : string) (st : state) :
  (remove_attribute r a st).1 = value tt
  ∧ (get_attribute r a (remove_attribute r a st).2).1 = value None
  ∧ (∀ r' a', (r', a') ≠ (r, a) →
      (get_attribute r' a' (remove_attribute r a st).2).1
      = (get_attribute r' a' st).1)
  ∧ (role_attributes st !! (r, a) = None →
      role_attributes (remove_attribute r a st).2 = role_attributes st).
Proof.
  split; [reflexivity|]. split; [|split].
  - rewrite get_attribute_run. simpl. by rewrite lookup_delete_eq.
  - intros r' a' Hne. rewrite !get_attribute_run. simpl.
    by rewrite lookup_delete_ne.
  - apply delete_id.
Qed.

(** X12: on one (role, attribute) pair the last attribute write decides: a
    second [set_attribute] replaces the value of the first, setting the same
    value twice is setting it once, removing after setting is removing, and
    setting after removing is setting. *)
Theorem attribute_writes_compose (r a v v' : string) (st : state) :
  role_attributes (set_attribute r a v' (set_attribute r a v st).2).2
    = role_attributes (set_attribute r a v' st).2
  ∧ role_attributes (set_attribute r a v (set_attribute r a v st).2).2
    = role_attributes (set_attribute r a v st).2
  ∧ role_attributes (remove_attribute r a (set_attribute r a v st).2).2
    = role_attributes (remove_attribute r a st).2
  ∧ role_attributes (set_attribute r a v (remove_attribute r a st).2).2
    = role_attributes (set_attribute r a v st).2
  ∧ role_attributes (remove_attribute r a (remove_attribute r a st).2).2
    = role_attributes (remove_attribute r a st).2.
Proof.
  simpl. split; [apply insert_insert_eq|]. split; [apply insert_insert_eq|].
  split; [apply delete_insert_eq|]. split; [apply insert_delete_eq|].
  apply delete_delete_eq.
Qed.

(** X13: the two tables are written independently. [set_attribute] and
    [remove_attribute] leave every answer of [find_record], [query_granted]
    and [query_all] as it was; [create_or_replace] and the bootstrap ([start],
    the background task it stores, and the two run one after the other)
    leave every answer of [get_attribute] as it was. *)
Theorem role_and_attribute_writes_independent
    (r a v g a' : string) (c : role_config) (m : recursive_role_query)
    (st : state) :
  Forall (λ st', (find_record g st').1 = (find_record g st).1
                 ∧ (query_granted g m st').1 = (query_granted g m st).1
                 ∧ (query_all st').1 = (query_all st).1)
    [ (set_attribute r a v st).2; (remove_attribute r a st).2 ]
  ∧ Forall (λ st', (get_attribute g a' st').1 = (get_attribute g a' st).1)
      [ (create_or_replace r c st).2; (start st).2;
        (default_role_task st).2; (start_and_complete st).2 ].
Proof.
  split.
  - repeat constructor;
      by rewrite ?find_record_result, ?query_granted_run, ?query_all_listed.
  - rewrite start_and_complete_run, (default_role_task_run (start st).2).
    rewrite default_role_task_run, start_run.
    repeat constructor; by rewrite !get_attribute_run.
Qed.


(** X15: [set_attribute] accepts a role that [query_all] does not list
    (no row of that name and no membership naming it). The value is then
    returned by [get_attribute], but [query_attribute_for_all] has an entry
    for the role only when [query_all] lists it. *)
Theorem set_attribute_seen_only_if_listed (r a v : string) (st : state) :
  ∃ (S : role_set) (m : attribute_vals),
    (query_all st).1 = value S
    ∧ (get_attribute r a (set_attribute r a v st).2).1 = value (Some v)
    ∧ (query_attribute_for_all a (set_attribute r a v st).2).1 = value m
    ∧ m !! r = (if decide (r ∈ S) then Some v else None).
Proof.
  destruct (query_attribute_for_all_result a (set_attribute r a v st).2)
    as (m & st' & Hrun & _ & _ & Hm).
  exists (listed (roles st)), m. split; [by rewrite query_all_listed|].
  split; [rewrite get_attribute_run; simpl; by rewrite lookup_insert_eq|].
  split; [by rewrite Hrun|].
  rewrite Hm. simpl. by rewrite lookup_insert_eq.
Qed.

(** ** Bootstrap against a store that fails *)

Lemma create_default_role_if_missing_body :
  create_default_role_if_missing
  = create_default_role_if_missing_on
      (default_role_row_satisfies has_can_login)
      (execute_insert_role QUORUM DEFAULT_SUPERUSER_NAME true true).
Proof. reflexivity. Qed.

(** X16: when the lookup of the default role, or the insert that follows a
    negative lookup, fails, [create_default_role_if_missing] fails with the
    same exception: a failure is never turned into success and no creation is
    logged. It logs one warning when the exception is [unavailable_exception]
    and nothing for any other exception. *)
Theorem bootstrap_failure_propagates
    (lookup : future bool) (insert : future unit) (e : exception)
    (st st1 : state) :
  lookup st = (thrown e, st1)
  ∨ (∃ st0, lookup st = (value false, st0) ∧ insert st0 = (thrown e, st1)) →
  create_default_role_if_missing_on lookup insert st
  = (thrown e,
     if decide (e = unavailable_exception) then emit ev_log_warn st1 else st1).
Proof.
  intros H. unfold create_default_role_if_missing_on, handle_unavailable.
  rewrite bind_run.
  destruct H as [->|(st0 & -> & Hins)].
  - destruct e; reflexivity.
  - simpl. rewrite bind_run, Hins. destruct e; reflexivity.
Qed.

(** ** Listing *)

(** X17: [query_all] returns the empty set exactly when the roles table has
    no row. *)
Theorem query_all_empty_iff (st : state) :
  (query_all st).1 = value ∅ ↔ roles st = ∅.
Proof.
  rewrite query_all_listed. simpl. split.
  - intros [= H]. apply map_empty. intros i.
    destruct (roles st !! i) as [c|] eqn:Hi; [|done].
    assert (Hin : i ∈ listed (roles st)).
    { apply elem_of_listed. left. by eexists. }
    rewrite H in Hin. by apply not_elem_of_empty in Hin.
  - intros ->. unfold listed. by rewrite map_to_list_empty.
Qed.

Lemma listed_ensured (t : gmap string role_cells) :
  listed (ensured t) = {[DEFAULT_SUPERUSER_NAME]} ∪ listed t.
Proof.
  unfold ensured. destruct (default_role_qualifies t) eqn:Hq.
  - apply set_eq. intros x. rewrite elem_of_union, elem_of_singleton. split.
    + by right.
    + intros [->|H]; [|done]. apply elem_of_listed. left.
      unfold default_role_qualifies in Hq.
      by destruct (t !! DEFAULT_SUPERUSER_NAME).
  - apply listed_upsert_flags.
Qed.

(** X18: whenever a run of [create_default_role_if_missing] succeeds, the
    default role has a row with [can_login] set on the store it leaves, so
    [require_record] and [query_granted] succeed for it; [query_all] lists
    the default role in addition to exactly the names it listed before, and
    the record of every other role reads as before. *)
Theorem after_bootstrap_default_role_exists
    (g : string) (m : recursive_role_query) (st st' : state) :
  create_default_role_if_missing st = (value tt, st') →
  (∃ c, roles st' !! DEFAULT_SUPERUSER_NAME = Some c
        ∧ is_Some (can_login_cell c)
        ∧ (require_record DEFAULT_SUPERUSER_NAME st').1
          = value (record_of DEFAULT_SUPERUSER_NAME c)
        ∧ (query_granted DEFAULT_SUPERUSER_NAME m st').1
          = value ({[DEFAULT_SUPERUSER_NAME]}
                   ∪ from_option memberships ∅ (roles st !! DEFAULT_SUPERUSER_NAME)))
  ∧ (∃ S : role_set,
       (query_all st).1 = value S
       ∧ (query_all st').1 = value ({[DEFAULT_SUPERUSER_NAME]} ∪ S))
  ∧ (g ≠ DEFAULT_SUPERUSER_NAME →
     (find_record g st').1 = (find_record g st).1).
Proof.
  rewrite create_default_role_if_missing_run. intros [= <-].
  split; [|split].
  - rewrite require_record_run, query_granted_run. simpl.
    pose proof (ensured_qualifies (roles st)) as Hq.
    unfold default_role_qualifies in Hq. unfold ensured in *.
    destruct (default_role_qualifies (roles st)) eqn:Hq0.
    + destruct (roles st !! DEFAULT_SUPERUSER_NAME) as [c|] eqn:Hc; [|done].
      exists c. split; [done|]. split; [|done].
      unfold has_can_login, row_has_can_login in Hq. simpl in Hq.
      destruct (can_login_cell c); [by eexists|done].
    + rewrite upsert_flags_lookup, decide_True by done.
      eexists. split; [done|]. split; [by eexists|]. split; [done|].
      unfold memberships. simpl.
      by destruct (roles st !! DEFAULT_SUPERUSER_NAME).
  - exists (listed (roles st)). rewrite !query_all_listed. simpl.
    split; [done|]. by rewrite listed_ensured.
  - intros Hg. rewrite !find_record_result. simpl. f_equal. f_equal.
    unfold ensured. destruct (default_role_qualifies (roles st)); [done|].
    by rewrite upsert_flags_lookup, decide_False.
Qed.

End rest_role_manager.

(** * The manager on the sample stores *)

Module Examples.

Import Stores.
Local Open Scope string_scope.

Example query_granted_chain :
  (query_granted cassandra "A" recursive_yes chain).1 = value {[ "A"; "B" ]}
  ∧ (query_granted cassandra "A" recursive_no chain).1 = value {[ "A"; "B" ]}
  ∧ (query_granted cassandra "C" recursive_no chain).1
      = thrown (nonexistant_role "C").
Proof. repeat split; vm_compute; reflexivity. Qed.

Example query_all_chain :
  (query_all chain).1 = value {[ "A"; "B"; "C" ]}.
Proof. vm_compute. reflexivity. Qed.

Example query_attribute_for_all_X :
  (query_attribute_for_all "X" with_attributes).1
  = value {[ "A" := "1"; "C" := "3" ]}.
Proof. vm_compute. reflexivity. Qed.

Example start_on_fresh_store :
  trace (start cassandra true fresh).2
  = [ev_create_table_if_missing roles_table;
     ev_create_table_if_missing role_attributes_table]
  ∧ trace (start cassandra false fresh).2
  = [ev_create_table_if_missing role_attributes_table;
     ev_create_table_if_missing roles_table]
  ∧ roles (start cassandra false fresh).2 = ∅
  ∧ trace (start_and_complete cassandra false fresh).2
  = [ev_create_table_if_missing role_attributes_table;
     ev_create_table_if_missing roles_table;
     ev_wait_for_schema_agreement;
     ev_default_role_row_lookup;
     ev_query (Some QUORUM) (insert_role cassandra true true);
     ev_log_info]
  ∧ roles (start_and_complete cassandra false fresh).2
    = {[ cassandra := cells_of (Some true) (Some true) None ]}.
Proof. repeat split; vm_compute; reflexivity. Qed.

Example both_insert_on_fresh_store :
  events_of (interleave cassandra true both_check_first (NOT_STARTED, NOT_STARTED)) fresh
  = [ev_create_table_if_missing roles_table;
     ev_create_table_if_missing role_attributes_table;
     ev_create_table_if_missing roles_table;
     ev_create_table_if_missing role_attributes_table;
     ev_wait_for_schema_agreement;
     ev_wait_for_schema_agreement;
     ev_default_role_row_lookup;
     ev_default_role_row_lookup;
     ev_query (Some QUORUM) (insert_role cassandra true true);
     ev_log_info;
     ev_query (Some QUORUM) (insert_role cassandra true true);
     ev_log_info].
Proof. vm_compute. reflexivity. Qed.

(** C2, as stated, fails: the scan of [query_all] reads the record of
    "alice", which is not the default role, and is issued at [QUORUM], not at
    [LOCAL_ONE]. *)
Lemma query_all_reads_other_roles_at_quorum :
  events_of query_all only_alice = [ev_query (Some QUORUM) select_all_roles]
  ∧ "alice" ∈ records_touched (roles only_alice) select_all_roles
  ∧ "alice" ≠ cassandra
  ∧ ¬ Forall (follows_record_rule cassandra (roles only_alice))
        (events_of query_all only_alice)
  ∧ ¬ record_rule_holds_for cassandra query_all.
Proof.
  assert (Hin : "alice" ∈ records_touched (roles only_alice) select_all_roles).
  { apply elem_of_dom. by eexists. }
  assert (Hno : ¬ Forall (follows_record_rule cassandra (roles only_alice))
                  (events_of query_all only_alice)).
  { intros H. apply Forall_inv in H. specialize (H "alice" Hin). discriminate H. }
  split; [vm_compute; reflexivity|].
  split; [exact Hin|].
  split; [discriminate|].
  split; [exact Hno|].
  intros H. apply Hno, H.
Qed.



End Examples.

(** * Instances of the further properties *)

Module Scenarios.

Import Stores.
Local Open Scope string_scope.

(** Writes for "A" and "B" on the chain store commute. *)
Lemma writes_for_A_and_B_commute :
  "A" ≠ "B"
  ∧ roles (create_or_replace cassandra "B" locked
             (create_or_replace cassandra "A" admin chain).2).2
    = roles (create_or_replace cassandra "A" admin
               (create_or_replace cassandra "B" locked chain).2).2.
Proof.
  assert (H : "A" ≠ "B") by discriminate.
  split; [exact H|].
  exact (proj1 (writes_for_different_roles_commute cassandra
                  "A" "B" admin locked "X" "Y" "1" "2" chain H)).
Defined.

(** Replacing the flags of "A" on the chain store keeps its memberships. *)
Lemma replacing_A_keeps_its_memberships :
  (is_Some (roles chain !! "A") ∨ "A" ≠ "A")
  ∧ (query_granted cassandra "A" recursive_no
       (create_or_replace cassandra "A" locked chain).2).1
    = (query_granted cassandra "A" recursive_no chain).1.
Proof.
  assert (H : is_Some (roles chain !! "A") ∨ "A" ≠ "A").
  { left. eexists. vm_compute. reflexivity. }
  split; [exact H|].
  exact (create_or_replace_keeps_memberships cassandra
           "A" "A" locked recursive_no chain H).
Defined.

(** On the chain store what is granted to "A" is listed by [query_all]. *)
Lemma granted_to_A_is_listed :
  (query_granted cassandra "A" recursive_yes chain).1 = value {[ "A"; "B" ]}
  ∧ (query_all chain).1 = value {[ "A"; "B"; "C" ]}
  ∧ ({[ "A"; "B" ]} : role_set) ⊆ {[ "A"; "B"; "C" ]}.
Proof.
  assert (HG : (query_granted cassandra "A" recursive_yes chain).1
               = value {[ "A"; "B" ]}) by (vm_compute; reflexivity).
  assert (HS : (query_all chain).1 = value {[ "A"; "B"; "C" ]})
    by (vm_compute; reflexivity).
  split; [exact HG|]. split; [exact HS|].
  exact (query_granted_within_query_all cassandra
           "A" recursive_yes chain _ _ HG HS).
Defined.

(** The lookup finds nothing and the insert meets an unavailable store: the
    bootstrap fails with that exception after one warning. *)
Lemma unavailable_insert_is_rethrown :
  (make_ready_future false fresh = (thrown unavailable_exception, fresh)
   ∨ ∃ st0, make_ready_future false fresh = (value false, st0)
            ∧ throw (A := unit) unavailable_exception st0
              = (thrown unavailable_exception, fresh))
  ∧ create_default_role_if_missing_on (make_ready_future false) (throw unavailable_exception) fresh
    = (thrown unavailable_exception, emit ev_log_warn fresh).
Proof.
  assert (H : make_ready_future false fresh = (thrown unavailable_exception, fresh)
              ∨ ∃ st0, make_ready_future false fresh = (value false, st0)
                       ∧ throw (A := unit) unavailable_exception st0
                         = (thrown unavailable_exception, fresh)).
  { right. exists fresh. split; reflexivity. }
  split; [exact H|].
  exact (bootstrap_failure_propagates (make_ready_future false) (throw unavailable_exception)
           unavailable_exception fresh fresh H).
Defined.

(** On an empty store a run of the bootstrap step succeeds and [query_all]
    then lists the default role. *)
Lemma bootstrap_on_fresh_store_lists_default_role :
  create_default_role_if_missing cassandra fresh
    = (value tt, (create_default_role_if_missing cassandra fresh).2)
  ∧ ∃ S : role_set,
      (query_all fresh).1 = value S
      ∧ (query_all (create_default_role_if_missing cassandra fresh).2).1
        = value ({[cassandra]} ∪ S).
Proof.
  assert (H : create_default_role_if_missing cassandra fresh
              = (value tt, (create_default_role_if_missing cassandra fresh).2))
    by (vm_compute; reflexivity).
  split; [exact H|].
  exact (proj1 (proj2 (after_bootstrap_default_role_exists cassandra
                         "alice" recursive_no fresh _ H))).
Defined.

End Scenarios.
